(** * Log.cpp: the logging singleton, embedded and verified

    The logger of [src/Log.cpp] holds a severity threshold, a file name, a
    vector of labels used as a stack and an output file stream.  Every member
    function is embedded as a computation over a [World]: the logger object
    together with the two sinks it writes to (the console and the files on
    disk).  A computation either returns a value and a new world or is
    undefined ([back()] and [pop_back()] on an empty vector). *)

From Stdlib Require Import ZArith.
From stdpp Require Import gmap strings list fin_maps.

Local Open Scope Z_scope.

(** ** Severity levels *)

(** Modelled from the spec: the enumeration [Log::Type] is declared in
    [Log.h], which is not among the sources.  The spec gives it as an
    "ordered enumeration, most severe first: FATAL, ERROR, WARN, INFO, DEBUG.
    Lower ordinal = more severe"; the comment "If it's an error (or worse)" on
    the test [type <= ERROR] of [Log::log] agrees with that order. *)
Inductive Type_ : Set := FATAL | ERROR | WARN | INFO | DEBUG.

(** The value of an enumerator (C++ numbers them from 0 in declaration
    order). *)
Definition ord (t : Type_) : Z :=
  match t with
  | FATAL => 0
  | ERROR => 1
  | WARN => 2
  | INFO => 3
  | DEBUG => 4
  end.

(** [a <= b] on enumerators, as the code compares them. *)
Definition type_le (a b : Type_) : bool := ord a <=? ord b.

(** ** std::string and std::vector, as far as the logger uses them *)

Definition str_empty (s : string) : bool :=
  match s with
  | EmptyString => true
  | String _ _ => false
  end.

Definition vec_empty (v : list string) : bool :=
  match v with
  | [] => true
  | _ :: _ => false
  end.

(** [push_back] appends at the end: the last element is the top. *)
Definition push_back (x : string) (v : list string) : list string := v ++ [x].

(** [back()]: the last element; [None] stands for the undefined behaviour of
    [back()] on an empty vector. *)
Definition back (v : list string) : option string := last v.

(** [pop_back()]: drops the last element; undefined on an empty vector. *)
Definition pop_back (v : list string) : option (list string) :=
  match v with
  | [] => None
  | _ :: _ => Some (removelast v)
  end.

(** ** std::ofstream, as far as the logger uses it

    A stream is associated with at most one file and carries an error flag
    (failbit or badbit).  The disk maps a path to the lines of the file at
    that path. *)

Record ofstream : Set := mk_ofstream {
  fs_file : option string;
  fs_fail : bool
}.

(** The default-constructed stream. *)
Definition ofstream_new : ofstream := mk_ofstream None false.

Definition file_lines (d : gmap string (list string)) (p : string) : list string :=
  default [] (d !! p).

(** [stream << message << std::endl]: one more line at the end of the file;
    nothing when the error flag is set; without a file the write fails and
    sets the flag. *)
Definition ofstream_line (line : string) (f : ofstream) (d : gmap string (list string))
  : ofstream * gmap string (list string) :=
  if fs_fail f then (f, d)
  else match fs_file f with
       | Some p => (f, <[p := file_lines d p ++ [line]]> d)
       | None => (mk_ofstream None true, d)
       end.

(** [close()]: releases the file; fails when there is none. *)
Definition ofstream_close (f : ofstream) : ofstream :=
  match fs_file f with
  | Some _ => mk_ofstream None (fs_fail f)
  | None => mk_ofstream None true
  end.

(** ** The logger and its world *)

Record Log : Type := mk_Log {
  m_threshold : Type_;
  m_fileName : string;
  m_stack : list string;
  m_stream : ofstream;
  m_initialised : bool
}.

Record World : Type := mk_World {
  self : Log;                          (* the singleton *)
  cout : list string;                  (* lines on the console, oldest first *)
  disk : gmap string (list string)     (* lines of each file, oldest first *)
}.

(** [Log::Log()].  [m_initialised] is absent from the initialiser list; the
    only instance is the function-local static of [Log::instance], whose
    storage is zero-initialised before the constructor runs, hence [false]. *)
Definition Log_new : Log :=
  mk_Log INFO "" [] ofstream_new false.

(** The world in which [Log::instance] has just constructed the logger. *)
Definition instance (console : list string) (d : gmap string (list string)) : World :=
  mk_World Log_new console d.

(** The logger right after construction, in a world with an empty console
    and an empty disk. *)
Definition fresh : World := instance [] ∅.

(** An environment in which every file can be opened. *)
Definition every_path : string -> bool := fun _ => true.

(** ** Computations *)

Inductive outcome (A : Type) : Type :=
| Ret (a : A) (w : World)
| Undefined.
Arguments Ret {A} a w.
Arguments Undefined {A}.

Definition M (A : Type) : Type := World -> outcome A.

Definition ret {A} (a : A) : M A := fun w => Ret a w.

Definition bind {A B} (c : M A) (k : A -> M B) : M B :=
  fun w => match c w with
           | Ret a w' => k a w'
           | Undefined => Undefined
           end.

Notation "'let*' x ':=' c 'in' k" := (bind c (fun x => k))
  (at level 10, x name, c at level 100, k at level 200, only parsing).
Notation "c ';;;' k" := (bind c (fun _ => k))
  (at level 100, k at level 200, right associativity, only parsing).

Section Logger.

(** Whether the environment lets a file at the given path be opened for
    writing; [Log::initialise] never looks at the outcome. *)
Variable can_open : string -> bool.

(** [open(path, ios_base::app | ios_base::out)]: fails on a stream which is
    already open or when the environment refuses; on success the error flag
    is cleared, the file is created when absent, and what it already holds
    is kept (append mode). *)
Definition ofstream_open (p : string) (f : ofstream) (d : gmap string (list string))
  : ofstream * gmap string (list string) :=
  match fs_file f with
  | Some _ => (mk_ofstream (fs_file f) true, d)
  | None =>
      if can_open p
      then (mk_ofstream (Some p) false, <[p := file_lines d p]> d)
      else (mk_ofstream None true, d)
  end.

(** Reading and assigning the members of the logger. *)
Definition this : M Log := fun w => Ret (self w) w.

Definition assign (f : Log -> Log) : M unit :=
  fun w => Ret tt (mk_World (f (self w)) (cout w) (disk w)).

Definition set_fileName (s : string) (l : Log) : Log :=
  mk_Log (m_threshold l) s (m_stack l) (m_stream l) (m_initialised l).
Definition set_stack (v : list string) (l : Log) : Log :=
  mk_Log (m_threshold l) (m_fileName l) v (m_stream l) (m_initialised l).
Definition set_stream (f : ofstream) (l : Log) : Log :=
  mk_Log (m_threshold l) (m_fileName l) (m_stack l) f (m_initialised l).
Definition set_initialised (b : bool) (l : Log) : Log :=
  mk_Log (m_threshold l) (m_fileName l) (m_stack l) (m_stream l) b.

(** A vector operation which is undefined where the argument is [None]. *)
Definition defined {A} (o : option A) : M A :=
  fun w => match o with
           | Some a => Ret a w
           | None => Undefined
           end.

(** [std::cout << message << std::endl]. *)
Definition cout_line (message : string) : M unit :=
  fun w => Ret tt (mk_World (self w) (cout w ++ [message]) (disk w)).

(** [m_stream << message << std::endl]. *)
Definition stream_line (message : string) : M unit :=
  fun w => let '(f, d) := ofstream_line message (m_stream (self w)) (disk w) in
           Ret tt (mk_World (set_stream f (self w)) (cout w) d).

(** [m_stream.open(fileName.c_str(), app | out)]. *)
Definition stream_open (fileName : string) : M unit :=
  fun w => let '(f, d) := ofstream_open fileName (m_stream (self w)) (disk w) in
           Ret tt (mk_World (set_stream f (self w)) (cout w) d).

(** [m_stream.close()]. *)
Definition stream_close : M unit :=
  assign (fun l => set_stream (ofstream_close (m_stream l)) l).

(** ** The member functions of [Log]

    The [const char*] overloads build a [std::string] and call the overload
    below; on strings they are the same functions. *)

(** [Log::write]. *)
Definition write (message : string) : M unit :=
  cout_line message ;;;
  stream_line message.

(** The loop of [Log::log] over the vector, one [write] per element. *)
Fixpoint write_each (v : list string) : M unit :=
  match v with
  | [] => ret tt
  | x :: v' => write x ;;; write_each v'
  end.

(** [Log::log].  The prefix is the literal of the source. *)
Definition log (type : Type_) (message : string) : M bool :=
  let* l := this in
  if type_le type (m_threshold l) then
    let prefix := "[ TIME ] " in
    write (prefix +:+ message) ;;;
    (if type_le type ERROR then
       write "====== Stack Trace ======" ;;;
       (let* l' := this in write_each (rev (m_stack l'))) ;;;
       write "========================="
     else ret tt) ;;;
    ret true
  else ret false.

Definition fatal (message : string) : M bool := log FATAL message.
Definition error (message : string) : M bool := log ERROR message.
Definition warn (message : string) : M bool := log WARN message.
Definition info (message : string) : M bool := log INFO message.
Definition debug (message : string) : M bool := log DEBUG message.

(** [Log::initialise]. *)
Definition initialise (fileName : string) : M bool :=
  let* l := this in
  if negb (m_initialised l) then
    assign (set_fileName fileName) ;;;
    stream_open fileName ;;;
    assign (set_initialised true) ;;;
    info "Log initialised" ;;;
    ret true
  else ret false.

(** [Log::~Log]. *)
Definition destroy : M unit :=
  let* l := this in
  if m_initialised l then
    info "Log shutting down" ;;;
    stream_close
  else ret tt.

(** [Log::peek]: [m_stack.back()], with no test for emptiness. *)
Definition peek : M string :=
  let* l := this in
  defined (back (m_stack l)).

(** [Log::push]. *)
Definition push (input : string) : M bool :=
  if negb (str_empty input) then
    info ("BEGIN - " +:+ input) ;;;
    assign (fun l => set_stack (push_back input (m_stack l)) l) ;;;
    ret true
  else ret false.

(** [Log::pop]. *)
Definition pop : M string :=
  let* l := this in
  if negb (vec_empty (m_stack l)) then
    let* temp := peek in
    (let* l' := this in
     let* v := defined (pop_back (m_stack l')) in
     assign (set_stack v)) ;;;
    info ("END - " +:+ temp) ;;;
    ret temp
  else ret "".

(** ** Calls from the rest of the program *)

(** One call of a member function by the program that owns the logger;
    [fatal], [error], [warn], [info] and [debug] are [call_log] at their
    level. *)
Inductive call : Type :=
| call_initialise (fileName : string)
| call_write (message : string)
| call_log (type : Type_) (message : string)
| call_peek
| call_push (input : string)
| call_pop.

(** The effect of a call on the world, its result dropped. *)
Definition call_run (c : call) : M unit :=
  match c with
  | call_initialise fileName => initialise fileName ;;; ret tt
  | call_write message => write message
  | call_log type message => log type message ;;; ret tt
  | call_peek => peek ;;; ret tt
  | call_push input => push input ;;; ret tt
  | call_pop => pop ;;; ret tt
  end.

(** Calls in sequence. *)
Fixpoint calls (cs : list call) : M unit :=
  match cs with
  | [] => ret tt
  | c :: cs' => call_run c ;;; calls cs'
  end.

(** [push] called once for each label, in order. *)
Definition push_each (labels : list string) : M unit :=
  calls (call_push <$> labels).

(** The worlds a program can bring about: the logger as constructed, then
    any calls whose behaviour is defined. *)
Inductive reachable : World -> Prop :=
| reachable_instance console d : reachable (instance console d)
| reachable_call w c w' :
    reachable w -> call_run c w = Ret tt w' -> reachable w'.

(** ** The world after writing *)

(** The world after [write message]. *)
Definition write_world (message : string) (w : World) : World :=
  let fd := ofstream_line message (m_stream (self w)) (disk w) in
  mk_World (set_stream fd.1 (self w)) (cout w ++ [message]) fd.2.

(** The world after the lines [ls] have been written one by one. *)
Fixpoint written (ls : list string) (w : World) : World :=
  match ls with
  | [] => w
  | x :: ls' => written ls' (write_world x w)
  end.

(** The lines [log] writes for a message that passes the threshold. *)
Definition log_lines (type : Type_) (message : string) (stack : list string)
  : list string :=
  ("[ TIME ] " +:+ message) ::
  (if type_le type ERROR
   then "====== Stack Trace ======" :: rev stack ++ ["========================="]
   else []).

(** The world with the label vector replaced. *)
Definition with_stack (v : list string) (w : World) : World :=
  mk_World (set_stack v (self w)) (cout w) (disk w).

(** The stream accepts a line: it has a file and no error. *)
Definition stream_good (w : World) (p : string) : Prop :=
  fs_file (m_stream (self w)) = Some p /\ fs_fail (m_stream (self w)) = false.

(** The world after a call of [info]. *)
Definition informed (message : string) (w : World) : World :=
  if type_le INFO (m_threshold (self w))
  then written ["[ TIME ] " +:+ message] w
  else w.

(** The world after the assignments and the [open] of [initialise], before
    its message. *)
Definition opened (fileName : string) (w : World) : World :=
  let fd := ofstream_open fileName (m_stream (self w)) (disk w) in
  mk_World (set_initialised true (set_stream fd.1 (set_fileName fileName (self w))))
           (cout w) fd.2.

(** The world after [push] of a label that is not empty. *)
Definition pushed (input : string) (w : World) : World :=
  let w1 := informed ("BEGIN - " +:+ input) w in
  with_stack (m_stack (self w1) ++ [input]) w1.

(** The world after [pop] of the label [top] from a stack that is not empty. *)
Definition popped (top : string) (w : World) : World :=
  informed ("END - " +:+ top) (with_stack (removelast (m_stack (self w))) w).

(** Every label on the stack is a string that is not empty. *)
Definition labels_nonempty (w : World) : Prop :=
  Forall (fun x => x <> "") (m_stack (self w)).

(** [pop] called [n] times, the labels it returns collected in order. *)
Fixpoint pop_each (n : nat) : M (list string) :=
  match n with
  | O => ret []
  | S n' =>
      let* x := pop in
      let* xs := pop_each n' in
      ret (x :: xs)
  end.

(** The world right after the first [initialise] of the fresh logger. *)
Definition started_on (fileName : string) : World :=
  informed "Log initialised" (opened fileName fresh).

(** From [w] to [w'] the lines [ls] were added to the console and to the
    file at [p], the stream is good on [p] afterwards, and no other file and
    no flag of the logger changed. *)
Definition appended (p : string) (ls : list string) (w w' : World) : Prop :=
  stream_good w' p /\
  cout w' = cout w ++ ls /\
  file_lines (disk w') p = file_lines (disk w) p ++ ls /\
  (forall q, q <> p -> disk w' !! q = disk w !! q) /\
  m_initialised (self w') = m_initialised (self w).

(** From [w] to [w'] the console and every file only grew at the end. *)
Definition extends (w w' : World) : Prop :=
  cout w `prefix_of` cout w' /\
  forall q, file_lines (disk w) q `prefix_of` file_lines (disk w') q.

(** The stream has no file, so nothing can reach the disk. *)
Definition no_file (w : World) : Prop :=
  fs_file (m_stream (self w)) = None.

(** ** Writing *)

Lemma write_eq message w : write message w = Ret tt (write_world message w).
Proof.
  unfold write, bind, cout_line, stream_line, write_world; simpl.
  destruct (ofstream_line message (m_stream (self w)) (disk w)); reflexivity.
Qed.

Lemma write_each_eq ls : forall w, write_each ls w = Ret tt (written ls w).
Proof.
  induction ls as [|x ls IH]; intros w; simpl; [reflexivity|].
  unfold bind. rewrite write_eq. apply IH.
Qed.

Lemma written_app ls1 : forall ls2 w,
  written (ls1 ++ ls2) w = written ls2 (written ls1 w).
Proof.
  induction ls1 as [|x ls1 IH]; intros ls2 w; simpl; [reflexivity|apply IH].
Qed.

Lemma ofstream_line_file line f d :
  fs_file (ofstream_line line f d).1 = fs_file f.
Proof.
  unfold ofstream_line. destruct (fs_fail f); [reflexivity|].
  destruct (fs_file f) eqn:E; simpl; congruence.
Qed.

(** Writing touches the stream and the sinks, nothing else of the logger. *)
Lemma written_self ls : forall w,
  m_threshold (self (written ls w)) = m_threshold (self w) /\
  m_fileName (self (written ls w)) = m_fileName (self w) /\
  m_stack (self (written ls w)) = m_stack (self w) /\
  m_initialised (self (written ls w)) = m_initialised (self w) /\
  fs_file (m_stream (self (written ls w))) = fs_file (m_stream (self w)).
Proof.
  induction ls as [|x ls IH]; intros w; simpl; [repeat split|].
  destruct (IH (write_world x w)) as (H1 & H2 & H3 & H4 & H5).
  rewrite H1, H2, H3, H4, H5. simpl.
  repeat split. apply ofstream_line_file.
Qed.

Lemma written_cout ls : forall w, cout (written ls w) = cout w ++ ls.
Proof.
  induction ls as [|x ls IH]; intros w; simpl.
  - by rewrite app_nil_r.
  - rewrite IH. simpl. by rewrite <- app_assoc.
Qed.

Lemma write_world_good x w p :
  stream_good w p ->
  stream_good (write_world x w) p /\
  file_lines (disk (write_world x w)) p = file_lines (disk w) p ++ [x] /\
  (forall q, q <> p -> disk (write_world x w) !! q = disk w !! q).
Proof.
  intros [Hf Hg]. unfold stream_good, write_world, ofstream_line, file_lines.
  rewrite Hg, Hf. simpl. rewrite Hf, Hg.
  split; [done|]. split.
  - by rewrite lookup_insert_eq.
  - intros q Hq. by rewrite lookup_insert_ne.
Qed.

(** On a good stream the lines go to the end of the file, in order, and no
    other file changes. *)
Lemma written_good ls : forall w p,
  stream_good w p ->
  stream_good (written ls w) p /\
  file_lines (disk (written ls w)) p = file_lines (disk w) p ++ ls /\
  (forall q, q <> p -> disk (written ls w) !! q = disk w !! q).
Proof.
  induction ls as [|x ls IH]; intros w p Hg; simpl.
  - by rewrite app_nil_r.
  - destruct (write_world_good x w p Hg) as (Hg' & Hl & Ho).
    destruct (IH _ p Hg') as (Hg'' & Hl' & Ho').
    split; [done|]. split.
    + rewrite Hl', Hl. by rewrite <- app_assoc.
    + intros q Hq. rewrite Ho' by done. by apply Ho.
Qed.

(** ** Closed forms of the member functions *)

Lemma log_eq type message w :
  log type message w =
  (if type_le type (m_threshold (self w))
   then Ret true (written (log_lines type message (m_stack (self w))) w)
   else Ret false w).
Proof.
  unfold log, bind, this, ret, log_lines.
  destruct (type_le type (m_threshold (self w))); [|reflexivity].
  rewrite write_eq. simpl.
  destruct (type_le type ERROR); [|reflexivity].
  rewrite write_eq, write_each_eq, write_eq.
  cbn [written]. rewrite written_app. reflexivity.
Qed.

Lemma info_eq message w :
  info message w =
  (if type_le INFO (m_threshold (self w))
   then Ret true (written ["[ TIME ] " +:+ message] w)
   else Ret false w).
Proof. unfold info. rewrite log_eq. reflexivity. Qed.

Lemma info_informed message w :
  info message w = Ret (type_le INFO (m_threshold (self w))) (informed message w).
Proof.
  rewrite info_eq. unfold informed.
  by destruct (type_le INFO (m_threshold (self w))).
Qed.

Lemma informed_self message w :
  m_threshold (self (informed message w)) = m_threshold (self w) /\
  m_fileName (self (informed message w)) = m_fileName (self w) /\
  m_stack (self (informed message w)) = m_stack (self w) /\
  m_initialised (self (informed message w)) = m_initialised (self w) /\
  fs_file (m_stream (self (informed message w))) = fs_file (m_stream (self w)).
Proof.
  unfold informed. destruct (type_le INFO (m_threshold (self w))).
  - apply written_self.
  - repeat split.
Qed.

Lemma push_eq input w :
  push input w =
  (if str_empty input then Ret false w else Ret true (pushed input w)).
Proof.
  unfold push. destruct (str_empty input); simpl; [reflexivity|].
  unfold bind. rewrite info_informed. reflexivity.
Qed.

Lemma peek_eq w :
  peek w = match last (m_stack (self w)) with
           | Some x => Ret x w
           | None => Undefined
           end.
Proof. reflexivity. Qed.

Lemma pop_eq w :
  pop w =
  match last (m_stack (self w)) with
  | Some top => Ret top (popped top w)
  | None => Ret "" w
  end.
Proof.
  unfold pop, peek, bind, this, defined, back, pop_back, assign, ret.
  unfold popped, with_stack. cbn beta iota.
  destruct (last (m_stack (self w))) as [top|] eqn:L.
  - destruct (m_stack (self w)) as [|x v] eqn:E; [discriminate|].
    cbn [vec_empty negb]. cbn beta. rewrite E, L. cbn beta iota.
    rewrite E. cbn beta iota. rewrite info_informed. reflexivity.
  - apply last_None in L. rewrite L. reflexivity.
Qed.

Lemma initialise_eq fileName w :
  initialise fileName w =
  (if m_initialised (self w) then Ret false w
   else Ret true (informed "Log initialised" (opened fileName w))).
Proof.
  unfold initialise, bind, this, ret. cbn beta iota.
  destruct (m_initialised (self w)); cbn [negb]; [reflexivity|].
  unfold assign at 1. cbn beta iota. unfold stream_open, opened.
  cbn [self cout disk].
  destruct (ofstream_open fileName _ _) as [f d] eqn:E.
  unfold assign. rewrite info_informed. reflexivity.
Qed.

(** The destructor does nothing to a logger that was never initialised;
    otherwise it logs the shut down and then releases the file. *)
Lemma destroy_eq w :
  destroy w =
  Ret tt (if m_initialised (self w)
          then let w1 := informed "Log shutting down" w in
               mk_World (set_stream (ofstream_close (m_stream (self w1))) (self w1))
                        (cout w1) (disk w1)
          else w).
Proof.
  unfold destroy, bind, this, ret. cbn beta iota.
  destruct (m_initialised (self w)); [|reflexivity].
  rewrite info_informed. reflexivity.
Qed.

(** The world a defined call leaves behind. *)
Lemma call_run_eq c w :
  call_run c w =
  match c with
  | call_initialise fileName =>
      Ret tt (if m_initialised (self w) then w
              else informed "Log initialised" (opened fileName w))
  | call_write message => Ret tt (write_world message w)
  | call_log type message =>
      Ret tt (if type_le type (m_threshold (self w))
              then written (log_lines type message (m_stack (self w))) w
              else w)
  | call_peek =>
      match last (m_stack (self w)) with
      | Some _ => Ret tt w
      | None => Undefined
      end
  | call_push input =>
      Ret tt (if str_empty input then w else pushed input w)
  | call_pop =>
      Ret tt (match last (m_stack (self w)) with
              | Some top => popped top w
              | None => w
              end)
  end.
Proof.
  destruct c; unfold call_run; try unfold bind at 1.
  - rewrite initialise_eq. by destruct (m_initialised (self w)).
  - apply write_eq.
  - rewrite log_eq. by destruct (type_le type (m_threshold (self w))).
  - rewrite peek_eq. by destruct (last (m_stack (self w))).
  - rewrite push_eq. by destruct (str_empty input).
  - rewrite pop_eq. by destruct (last (m_stack (self w))).
Qed.

(** ** What the member functions leave alone *)

Lemma Ret_world {A} (a b : A) (w w' : World) : Ret a w = Ret b w' -> w' = w.
Proof. congruence. Qed.


Lemma informed_cout message w :
  cout (informed message w) =
  cout w ++ (if type_le INFO (m_threshold (self w))
             then ["[ TIME ] " +:+ message] else []).
Proof.
  unfold informed. destruct (type_le INFO (m_threshold (self w))).
  - apply written_cout.
  - by rewrite app_nil_r.
Qed.

Lemma pushed_self input w :
  m_threshold (self (pushed input w)) = m_threshold (self w) /\
  m_fileName (self (pushed input w)) = m_fileName (self w) /\
  m_stack (self (pushed input w)) = m_stack (self w) ++ [input] /\
  m_initialised (self (pushed input w)) = m_initialised (self w) /\
  fs_file (m_stream (self (pushed input w))) = fs_file (m_stream (self w)).
Proof.
  unfold pushed, with_stack. cbn.
  destruct (informed_self ("BEGIN - " +:+ input) w) as (-> & -> & -> & -> & ->).
  repeat split.
Qed.

Lemma pushed_cout input w :
  cout (pushed input w) =
  cout w ++ (if type_le INFO (m_threshold (self w))
             then ["[ TIME ] " +:+ ("BEGIN - " +:+ input)] else []).
Proof. unfold pushed, with_stack. cbn [cout]. apply informed_cout. Qed.

Lemma popped_self top w :
  m_threshold (self (popped top w)) = m_threshold (self w) /\
  m_fileName (self (popped top w)) = m_fileName (self w) /\
  m_stack (self (popped top w)) = removelast (m_stack (self w)) /\
  m_initialised (self (popped top w)) = m_initialised (self w) /\
  fs_file (m_stream (self (popped top w))) = fs_file (m_stream (self w)).
Proof.
  unfold popped.
  destruct (informed_self ("END - " +:+ top)
              (with_stack (removelast (m_stack (self w))) w))
    as (-> & -> & -> & -> & ->).
  repeat split.
Qed.

Lemma popped_cout top w :
  cout (popped top w) =
  cout w ++ (if type_le INFO (m_threshold (self w))
             then ["[ TIME ] " +:+ ("END - " +:+ top)] else []).
Proof. unfold popped. rewrite informed_cout. reflexivity. Qed.

Lemma initialised_self fileName w :
  let w' := informed "Log initialised" (opened fileName w) in
  m_threshold (self w') = m_threshold (self w) /\
  m_fileName (self w') = fileName /\
  m_stack (self w') = m_stack (self w) /\
  m_initialised (self w') = true /\
  fs_file (m_stream (self w')) =
    fs_file (ofstream_open fileName (m_stream (self w)) (disk w)).1.
Proof.
  cbv zeta.
  destruct (informed_self "Log initialised" (opened fileName w))
    as (-> & -> & -> & -> & ->).
  repeat split.
Qed.

(** No call assigns the threshold. *)
Lemma call_run_threshold c w w' :
  call_run c w = Ret tt w' -> m_threshold (self w') = m_threshold (self w).
Proof.
  rewrite call_run_eq. destruct c.
  - intros ->%Ret_world. destruct (m_initialised (self w)); [done|].
    apply initialised_self.
  - intros ->%Ret_world. reflexivity.
  - intros ->%Ret_world. destruct (type_le type (m_threshold (self w))); [|done].
    apply (written_self (log_lines type message (m_stack (self w))) w).
  - destruct (last (m_stack (self w))); [|done]. by intros ->%Ret_world.
  - intros ->%Ret_world. destruct (str_empty input); [done|]. apply pushed_self.
  - intros ->%Ret_world. destruct (last (m_stack (self w))); [|done].
    apply popped_self.
Qed.

Lemma Forall_removelast {A} (P : A -> Prop) (l : list A) :
  Forall P l -> Forall P (removelast l).
Proof.
  destruct (decide (l = [])) as [->|Hne]; [done|].
  apply last_is_Some in Hne as [x Hx]. apply last_Some in Hx as [l' ->].
  rewrite removelast_last. intros H. by apply Forall_app in H as [H _].
Qed.

(** Every call keeps the labels on the stack non-empty. *)
Lemma call_run_labels c w w' :
  labels_nonempty w -> call_run c w = Ret tt w' -> labels_nonempty w'.
Proof.
  unfold labels_nonempty. intros Hw. rewrite call_run_eq. destruct c.
  - intros ->%Ret_world. destruct (m_initialised (self w)); [done|].
    by destruct (initialised_self fileName w) as (_ & _ & -> & _).
  - by intros ->%Ret_world.
  - intros ->%Ret_world. destruct (type_le type (m_threshold (self w))); [|done].
    by destruct (written_self (log_lines type message (m_stack (self w))) w)
      as (_ & _ & -> & _).
  - destruct (last (m_stack (self w))); [|done]. by intros ->%Ret_world.
  - intros ->%Ret_world. destruct (str_empty input) eqn:E; [done|].
    destruct (pushed_self input w) as (_ & _ & -> & _).
    apply Forall_app. split; [done|]. apply Forall_singleton.
    intros ->. discriminate.
  - intros ->%Ret_world. destruct (last (m_stack (self w))); [|done].
    destruct (popped_self s w) as (_ & _ & -> & _).
    by apply Forall_removelast.
Qed.

(** Once the logger is initialised, every call keeps it so and keeps its
    file name and the file of its stream. *)
Lemma call_run_initialised c w w' :
  m_initialised (self w) = true -> call_run c w = Ret tt w' ->
  m_initialised (self w') = true /\
  m_fileName (self w') = m_fileName (self w) /\
  fs_file (m_stream (self w')) = fs_file (m_stream (self w)).
Proof.
  intros Hi. rewrite call_run_eq. destruct c.
  - rewrite Hi. by intros ->%Ret_world.
  - intros ->%Ret_world. cbn. repeat split; [done|]. apply ofstream_line_file.
  - intros ->%Ret_world. destruct (type_le type (m_threshold (self w))); [|done].
    destruct (written_self (log_lines type message (m_stack (self w))) w)
      as (_ & -> & _ & -> & ->). done.
  - destruct (last (m_stack (self w))); [|done]. by intros ->%Ret_world.
  - intros ->%Ret_world. destruct (str_empty input); [done|].
    by destruct (pushed_self input w) as (_ & -> & _ & -> & ->).
  - intros ->%Ret_world. destruct (last (m_stack (self w))); [|done].
    by destruct (popped_self s w) as (_ & -> & _ & -> & ->).
Qed.

(** A logger that has not been initialised has no file on its stream. *)
Lemma call_run_closed c w w' :
  (m_initialised (self w) = false -> fs_file (m_stream (self w)) = None) ->
  call_run c w = Ret tt w' ->
  m_initialised (self w') = false -> fs_file (m_stream (self w')) = None.
Proof.
  intros Hw. rewrite call_run_eq. destruct c.
  - intros ->%Ret_world. destruct (m_initialised (self w)) eqn:E; [by rewrite E|].
    by destruct (initialised_self fileName w) as (_ & _ & _ & -> & _).
  - intros ->%Ret_world. cbn. rewrite ofstream_line_file. done.
  - intros ->%Ret_world. destruct (type_le type (m_threshold (self w))); [|done].
    by destruct (written_self (log_lines type message (m_stack (self w))) w)
      as (_ & _ & _ & -> & ->).
  - destruct (last (m_stack (self w))); [|done]. by intros ->%Ret_world.
  - intros ->%Ret_world. destruct (str_empty input); [done|].
    by destruct (pushed_self input w) as (_ & _ & _ & -> & ->).
  - intros ->%Ret_world. destruct (last (m_stack (self w))); [|done].
    by destruct (popped_self s w) as (_ & _ & _ & -> & ->).
Qed.

(** ** Invariants of the reachable worlds *)

Lemma reachable_threshold w : reachable w -> m_threshold (self w) = INFO.
Proof.
  induction 1 as [|w c w' _ IH Hc]; [reflexivity|].
  by rewrite (call_run_threshold _ _ _ Hc).
Qed.

Lemma reachable_labels w : reachable w -> labels_nonempty w.
Proof.
  induction 1 as [|w c w' _ IH Hc]; [by constructor|].
  by apply (call_run_labels _ _ _ IH Hc).
Qed.

Lemma reachable_closed w :
  reachable w -> m_initialised (self w) = false ->
  fs_file (m_stream (self w)) = None.
Proof.
  induction 1 as [|w c w' _ IH Hc]; [reflexivity|].
  by apply (call_run_closed _ _ _ IH Hc).
Qed.

(** ** The threshold test of [log] *)

Lemma type_le_spec a b : type_le a b = true <-> ord a <= ord b.
Proof. unfold type_le. apply Z.leb_le. Qed.

Lemma type_le_false a b : type_le a b = false <-> ord b < ord a.
Proof. unfold type_le. apply Z.leb_gt. Qed.

Lemma app_neq_self {A} (l ls : list A) : ls <> [] -> l ++ ls <> l.
Proof.
  intros Hls Heq. apply (f_equal length) in Heq.
  rewrite length_app in Heq. destruct ls; [done|]. simpl in Heq. lia.
Qed.

(** C1: [log L m] returns true exactly when [L]'s ordinal is at most the
    threshold's, and it puts output on the console exactly then; a level
    below the threshold gives false and leaves the world (both sinks, the
    label stack, the threshold, the file name) as it was. *)
Theorem log_threshold (L : Type_) (m : string) (w : World) :
  ((exists w', log L m w = Ret true w') <->
     ord L <= ord (m_threshold (self w))) /\
  ((exists b w', log L m w = Ret b w' /\ cout w' <> cout w) <->
     ord L <= ord (m_threshold (self w))) /\
  (ord (m_threshold (self w)) < ord L -> log L m w = Ret false w).
Proof.
  rewrite log_eq.
  destruct (type_le L (m_threshold (self w))) eqn:E.
  - apply type_le_spec in E. repeat split; try done; try lia.
    + intros _. eauto.
    + intros _. eexists _, _. split; [reflexivity|].
      rewrite written_cout. by apply app_neq_self.
  - apply type_le_false in E. repeat split; try done; try lia.
    + intros [w' H]. discriminate.
    + intros (b & w' & H & Hne). by inversion H; subst.
Qed.

(** C2, at the input where the code departs from its documentation: a
    warning and an information message with the same text give the same
    line, whose bracket holds the literal word TIME -- neither a time nor
    the level of the message. *)
Theorem log_line_at_warn_and_info :
  exists w1 w2,
    log WARN "x" (instance [] ∅) = Ret true w1 /\ cout w1 = ["[ TIME ] x"] /\
    log INFO "x" (instance [] ∅) = Ret true w2 /\ cout w2 = ["[ TIME ] x"].
Proof.
  eexists _, _. rewrite !log_eq. cbn [instance self m_threshold Log_new].
  repeat split.
Qed.

(** C3: for a level that is ERROR or more severe and passes the threshold,
    [log] writes, after the line of the message, the opening banner, the
    whole label stack from the most recently pushed label back to the first,
    and the closing banner, to the console and to the file of a good stream;
    after [push "a"] and [push "b"], the dump of [log ERROR "boom"] has "b"
    before "a". *)
Theorem log_error_stack_dump :
  (forall L m w,
     ord L <= ord ERROR -> ord L <= ord (m_threshold (self w)) ->
     exists w',
       log L m w = Ret true w' /\
       cout w' = cout w ++ ["[ TIME ] " +:+ m; "====== Stack Trace ======"]
                        ++ rev (m_stack (self w))
                        ++ ["========================="] /\
       (forall p, stream_good w p ->
          file_lines (disk w') p =
            file_lines (disk w) p
              ++ ["[ TIME ] " +:+ m; "====== Stack Trace ======"]
              ++ rev (m_stack (self w))
              ++ ["========================="]) /\
       m_stack (self w') = m_stack (self w)) /\
  (forall w,
     ord ERROR <= ord (m_threshold (self w)) ->
     exists w1 w2 w3,
       push "a" w = Ret true w1 /\
       push "b" w1 = Ret true w2 /\
       log ERROR "boom" w2 = Ret true w3 /\
       cout w3 = cout w2 ++ ["[ TIME ] boom"; "====== Stack Trace ======"]
                         ++ ["b"; "a"] ++ rev (m_stack (self w))
                         ++ ["========================="]).
Proof.
  split.
  - intros L m w HE HT. rewrite log_eq.
    apply type_le_spec in HE, HT. rewrite HT. unfold log_lines. rewrite HE.
    eexists. split; [reflexivity|]. split; [apply written_cout|]. split.
    + intros p Hg. by apply written_good.
    + apply written_self.
  - intros w HT.
    pose (w1 := with_stack (m_stack (self (informed "BEGIN - a" w)) ++ ["a"])
                  (informed "BEGIN - a" w)).
    pose (w2 := with_stack (m_stack (self (informed "BEGIN - b" w1)) ++ ["b"])
                  (informed "BEGIN - b" w1)).
    assert (Hs1 : m_stack (self w1) = m_stack (self w) ++ ["a"]).
    { unfold w1. cbn [with_stack self m_stack set_stack].
      by destruct (informed_self "BEGIN - a" w) as (_ & _ & -> & _). }
    assert (Hs : m_stack (self w2) = m_stack (self w) ++ ["a"; "b"]).
    { unfold w2. cbn [with_stack self m_stack set_stack].
      destruct (informed_self "BEGIN - b" w1) as (_ & _ & -> & _).
      rewrite Hs1. by rewrite <- app_assoc. }
    assert (Ht : m_threshold (self w2) = m_threshold (self w)).
    { unfold w2. cbn [with_stack self m_threshold set_stack].
      destruct (informed_self "BEGIN - b" w1) as (-> & _).
      unfold w1. cbn [with_stack self m_threshold set_stack].
      by destruct (informed_self "BEGIN - a" w) as (-> & _). }
    exists w1, w2, (written (log_lines ERROR "boom" (m_stack (self w2))) w2).
    split; [by rewrite push_eq|]. split; [by rewrite push_eq|].
    rewrite log_eq, Ht. apply type_le_spec in HT. rewrite HT.
    split; [reflexivity|].
    rewrite written_cout. unfold log_lines. cbn [type_le ord Z.leb Z.compare].
    rewrite Hs, rev_app_distr. reflexivity.
Qed.

(** ** The label stack *)

Lemma calls_cons c cs w :
  calls (c :: cs) w =
  match call_run c w with
  | Ret _ w' => calls cs w'
  | Undefined => Undefined
  end.
Proof. reflexivity. Qed.

Lemma str_empty_false s : s <> "" -> str_empty s = false.
Proof. by destruct s. Qed.

(** Pushing labels that are not empty puts them on the stack in order. *)
Lemma push_each_nonempty labels : forall w,
  Forall (fun l => l <> "") labels ->
  exists w', push_each labels w = Ret tt w' /\
             m_stack (self w') = m_stack (self w) ++ labels.
Proof.
  induction labels as [|l ls IH]; intros w H.
  - exists w. by rewrite app_nil_r.
  - apply Forall_cons in H as [Hl Hls].
    destruct (IH (pushed l w) Hls) as (w' & Hrun & Hst).
    exists w'. unfold push_each in *. rewrite fmap_cons, calls_cons, call_run_eq.
    rewrite (str_empty_false _ Hl). split; [done|].
    rewrite Hst. destruct (pushed_self l w) as (_ & _ & -> & _).
    by rewrite <- app_assoc.
Qed.

Lemma peek_top_of st top w :
  m_stack (self w) = st ++ [top] -> peek w = Ret top w.
Proof. intros H. by rewrite peek_eq, H, last_snoc. Qed.

Lemma pop_top_of st top w :
  m_stack (self w) = st ++ [top] ->
  pop w = Ret top (popped top w) /\ m_stack (self (popped top w)) = st.
Proof.
  intros H. rewrite pop_eq, H, last_snoc. split; [done|].
  destruct (popped_self top w) as (_ & _ & -> & _).
  by rewrite H, removelast_last.
Qed.

(** C4, as amended: on a stack that is not empty [peek] returns the label
    pushed last and changes nothing; on the empty stack -- in particular on
    the logger as constructed -- it is undefined; after pushes of N labels,
    none of them empty, it returns the Nth, and for N at least two, after one
    [pop], the one before. *)
Theorem peek_top :
  (forall w st top, m_stack (self w) = st ++ [top] -> peek w = Ret top w) /\
  (forall w, m_stack (self w) = [] -> peek w = Undefined) /\
  (forall console d, reachable (instance console d) /\
     peek (instance console d) = Undefined) /\
  (forall labels x w,
     Forall (fun l => l <> "") labels -> last labels = Some x ->
     exists w', push_each labels w = Ret tt w' /\ peek w' = Ret x w') /\
  (forall labels a b w,
     Forall (fun l => l <> "") (labels ++ [a; b]) ->
     exists w' w'',
       push_each (labels ++ [a; b]) w = Ret tt w' /\
       pop w' = Ret b w'' /\ peek w'' = Ret a w'').
Proof.
  split; [intros w st top H; by apply (peek_top_of st)|].
  split; [intros w H; by rewrite peek_eq, H|].
  split; [intros console d; split; [constructor|reflexivity]|].
  split.
  - intros labels x w Hne Hx. apply last_Some in Hx as [ls ->].
    destruct (push_each_nonempty _ w Hne) as (w' & Hrun & Hst).
    exists w'. split; [done|].
    apply (peek_top_of (m_stack (self w) ++ ls)). by rewrite Hst, app_assoc.
  - intros labels a b w Hne.
    destruct (push_each_nonempty _ w Hne) as (w' & Hrun & Hst).
    assert (Hst' : m_stack (self w') = (m_stack (self w) ++ labels ++ [a]) ++ [b]).
    { rewrite Hst. by rewrite <- !app_assoc. }
    destruct (pop_top_of _ _ _ Hst') as (Hpop & Hpopped).
    exists w', (popped b w'). split; [done|]. split; [done|].
    apply (peek_top_of (m_stack (self w) ++ labels)).
    by rewrite Hpopped, app_assoc.
Qed.

(** C5: for a label [f] that is not empty, [push f] and then [pop] return
    true and [f], and the stack is again what it was before the push. *)
Theorem push_pop_roundtrip (f : string) (w : World) :
  f <> "" ->
  exists w1 w2,
    push f w = Ret true w1 /\ pop w1 = Ret f w2 /\
    m_stack (self w2) = m_stack (self w).
Proof.
  intros Hf. exists (pushed f w), (popped f (pushed f w)).
  rewrite push_eq, (str_empty_false _ Hf). split; [done|].
  apply (pop_top_of (m_stack (self w))). apply pushed_self.
Qed.

(** C6: [push ""] returns false and leaves the world as it was; for a label
    that is not empty, [push] calls [info] with "BEGIN - " and the label,
    appends the label to the stack and returns true; the line is written
    whenever INFO passes the threshold, as it does in every reachable
    world. *)
Theorem push_contract :
  (forall w, push "" w = Ret false w) /\
  (forall f w, f <> "" ->
     exists b w1,
       info ("BEGIN - " +:+ f) w = Ret b w1 /\
       push f w = Ret true (with_stack (m_stack (self w) ++ [f]) w1) /\
       (ord INFO <= ord (m_threshold (self w)) ->
        cout w1 = cout w ++ ["[ TIME ] " +:+ ("BEGIN - " +:+ f)])) /\
  (forall f w, reachable w -> f <> "" ->
     exists w',
       push f w = Ret true w' /\
       cout w' = cout w ++ ["[ TIME ] " +:+ ("BEGIN - " +:+ f)] /\
       m_stack (self w') = m_stack (self w) ++ [f]).
Proof.
  split; [reflexivity|]. split.
  - intros f w Hf. eexists _, _. split; [apply info_informed|].
    rewrite push_eq, (str_empty_false _ Hf). unfold pushed. cbv zeta.
    destruct (informed_self ("BEGIN - " +:+ f) w) as (_ & _ & -> & _).
    split; [done|]. intros Hle%type_le_spec.
    by rewrite informed_cout, Hle.
  - intros f w Hr Hf. exists (pushed f w).
    rewrite push_eq, (str_empty_false _ Hf). split; [done|].
    rewrite pushed_cout, (reachable_threshold _ Hr). split; [done|].
    apply pushed_self.
Qed.

(** C8: on the empty stack [pop] returns the empty string and leaves the
    world as it was; on a stack that is not empty it removes the top label,
    calls [info] with "END - " and that label, and returns the label; the
    line is written whenever INFO passes the threshold, as it does in every
    reachable world. *)
Theorem pop_contract :
  (forall w, m_stack (self w) = [] -> pop w = Ret "" w) /\
  (forall w st top, m_stack (self w) = st ++ [top] ->
     exists b w1,
       info ("END - " +:+ top) (with_stack st w) = Ret b w1 /\
       pop w = Ret top w1 /\
       m_stack (self w1) = st /\
       (ord INFO <= ord (m_threshold (self w)) ->
        cout w1 = cout w ++ ["[ TIME ] " +:+ ("END - " +:+ top)])) /\
  (forall w st top, reachable w -> m_stack (self w) = st ++ [top] ->
     exists w1,
       pop w = Ret top w1 /\
       m_stack (self w1) = st /\
       cout w1 = cout w ++ ["[ TIME ] " +:+ ("END - " +:+ top)]).
Proof.
  split; [intros w H; by rewrite pop_eq, H|]. split.
  - intros w st top H. destruct (pop_top_of _ _ _ H) as (Hpop & Hst).
    eexists _, _. split; [apply info_informed|].
    rewrite Hpop. unfold popped in *. rewrite H, removelast_last in *.
    split; [done|]. split; [done|]. intros Hle%type_le_spec.
    by rewrite informed_cout; cbn [with_stack self set_stack m_threshold cout];
      rewrite Hle.
  - intros w st top Hr H. destruct (pop_top_of _ _ _ H) as (Hpop & Hst).
    exists (popped top w). split; [done|]. split; [done|].
    by rewrite popped_cout, (reachable_threshold _ Hr).
Qed.

(** C9: every call keeps all labels on the stack non-empty, so they are in
    every reachable world; there [pop] returns the empty string only when
    the stack is empty. *)
Theorem stack_labels_nonempty :
  (forall c w w', labels_nonempty w -> call_run c w = Ret tt w' ->
     labels_nonempty w') /\
  (forall w, reachable w -> Forall (fun x => x <> "") (m_stack (self w))) /\
  (forall w w', reachable w -> pop w = Ret "" w' -> m_stack (self w) = []).
Proof.
  split; [apply call_run_labels|]. split; [apply reachable_labels|].
  intros w w' Hr. rewrite pop_eq.
  destruct (last (m_stack (self w))) as [top|] eqn:L.
  - intros [= -> _]. apply reachable_labels in Hr.
    apply last_Some in L as [st L]. unfold labels_nonempty in Hr.
    rewrite L in Hr. apply Forall_app in Hr as [_ Hr].
    rewrite Forall_singleton in Hr. by destruct Hr.
  - intros _. by apply last_None.
Qed.

(** C10: the constructor sets the threshold to INFO and no call changes it,
    so it is INFO in every reachable world; there [debug] returns false and
    leaves the world as it was, and the threshold is never WARN. *)
Theorem threshold_stays_info :
  m_threshold Log_new = INFO /\
  (forall c w w', call_run c w = Ret tt w' ->
     m_threshold (self w') = m_threshold (self w)) /\
  (forall w, reachable w -> m_threshold (self w) = INFO) /\
  (forall w m, reachable w -> debug m w = Ret false w) /\
  (forall w, reachable w -> m_threshold (self w) <> WARN).
Proof.
  split; [reflexivity|]. split; [apply call_run_threshold|].
  split; [apply reachable_threshold|]. split.
  - intros w m Hr. unfold debug. by rewrite log_eq, (reachable_threshold _ Hr).
  - intros w Hr. by rewrite (reachable_threshold _ Hr).
Qed.

(** ** Initialisation *)

Lemma calls_initialised cs : forall w1 w2,
  m_initialised (self w1) = true -> calls cs w1 = Ret tt w2 ->
  m_initialised (self w2) = true /\
  m_fileName (self w2) = m_fileName (self w1) /\
  fs_file (m_stream (self w2)) = fs_file (m_stream (self w1)).
Proof.
  induction cs as [|c cs IH]; intros w1 w2 Hi.
  - by intros ->%Ret_world.
  - rewrite calls_cons. destruct (call_run c w1) as [[] w|] eqn:Hc; [|done].
    intros Hcs.
    destruct (call_run_initialised _ _ _ Hi Hc) as (Hi' & Hn & Hf).
    destruct (IH _ _ Hi' Hcs) as (? & ? & ?). split; [done|]. split; congruence.
Qed.

(** C7: on a logger that is not initialised, [initialise] records the path,
    opens the stream on it in append mode, marks the logger initialised and
    returns true; on an initialised logger it returns false and leaves the
    world as it was, whatever the path; so after the first call no call
    changes the file name or the file of the stream. *)
Theorem initialise_once :
  (forall p w, m_initialised (self w) = false ->
     exists w1,
       initialise p w = Ret true w1 /\
       m_initialised (self w1) = true /\
       m_fileName (self w1) = p /\
       fs_file (m_stream (self w1)) =
         fs_file (ofstream_open p (m_stream (self w)) (disk w)).1) /\
  (forall p w, reachable w -> m_initialised (self w) = false ->
     can_open p = true ->
     exists w1,
       initialise p w = Ret true w1 /\
       stream_good w1 p /\
       file_lines (disk w1) p =
         file_lines (disk w) p ++ ["[ TIME ] Log initialised"]) /\
  (forall p w, m_initialised (self w) = true -> initialise p w = Ret false w) /\
  (forall p1 p2 w w1, initialise p1 w = Ret true w1 ->
     initialise p2 w1 = Ret false w1) /\
  (forall cs w1 w2, m_initialised (self w1) = true -> calls cs w1 = Ret tt w2 ->
     m_initialised (self w2) = true /\
     m_fileName (self w2) = m_fileName (self w1) /\
     fs_file (m_stream (self w2)) = fs_file (m_stream (self w1))).
Proof.
  split; [|split; [|split; [|split]]].
  - intros p w Hi. eexists. rewrite initialise_eq, Hi. split; [reflexivity|].
    destruct (initialised_self p w) as (_ & Hn & _ & Hi' & Hf). done.
  - intros p w Hr Hi Hp. eexists. rewrite initialise_eq, Hi.
    split; [reflexivity|].
    assert (Hg : stream_good (opened p w) p /\
                 file_lines (disk (opened p w)) p = file_lines (disk w) p).
    { unfold stream_good, opened, ofstream_open.
      rewrite (reachable_closed _ Hr Hi), Hp. cbn.
      split; [done|]. unfold file_lines at 1. by rewrite lookup_insert_eq. }
    destruct Hg as [Hg Hl]. unfold informed.
    replace (m_threshold (self (opened p w))) with INFO
      by (symmetry; apply (reachable_threshold _ Hr)).
    change (type_le INFO INFO) with true. cbn iota.
    destruct (written_good ["[ TIME ] " +:+ "Log initialised"] _ _ Hg)
      as (Hg' & Hl' & _).
    split; [done|]. by rewrite Hl', Hl.
  - intros p w Hi. by rewrite initialise_eq, Hi.
  - intros p1 p2 w w1. rewrite !initialise_eq.
    destruct (m_initialised (self w)) eqn:Hi; [done|].
    intros [= <-].
    by destruct (initialised_self p1 w) as (_ & _ & _ & -> & _).
  - apply calls_initialised.
Qed.

(** ** Console and file in step *)

Lemma appended_refl p w : stream_good w p -> appended p [] w w.
Proof. intros Hg. unfold appended. by rewrite !app_nil_r. Qed.

Lemma appended_trans p ls1 ls2 w1 w2 w3 :
  appended p ls1 w1 w2 -> appended p ls2 w2 w3 ->
  appended p (ls1 ++ ls2) w1 w3.
Proof.
  intros (_ & Hc1 & Hf1 & Ho1 & Hi1) (Hg & Hc2 & Hf2 & Ho2 & Hi2).
  split; [done|]. split; [by rewrite Hc2, Hc1, app_assoc|].
  split; [by rewrite Hf2, Hf1, app_assoc|].
  split; [|congruence]. intros q Hq. rewrite Ho2 by done. by apply Ho1.
Qed.

Lemma written_appended p ls w : stream_good w p -> appended p ls w (written ls w).
Proof.
  intros Hg. destruct (written_good ls w p Hg) as (Hg' & Hf & Ho).
  split; [done|]. split; [apply written_cout|]. split; [done|].
  split; [done|]. apply written_self.
Qed.

Lemma informed_appended p message w :
  stream_good w p ->
  exists ls, appended p ls w (informed message w).
Proof.
  intros Hg. unfold informed. destruct (type_le INFO (m_threshold (self w))).
  - eexists. by apply written_appended.
  - exists []. by apply appended_refl.
Qed.

Lemma with_stack_appended p v w : stream_good w p -> appended p [] w (with_stack v w).
Proof. intros Hg. unfold appended, with_stack. cbn. by rewrite !app_nil_r. Qed.

Lemma call_run_appended p c w w' :
  m_initialised (self w) = true -> stream_good w p ->
  call_run c w = Ret tt w' ->
  exists ls, appended p ls w w'.
Proof.
  intros Hi Hg. rewrite call_run_eq. destruct c.
  - rewrite Hi. intros ->%Ret_world. exists []. by apply appended_refl.
  - intros ->%Ret_world. exists [message].
    by apply (written_appended p [message]).
  - intros ->%Ret_world. destruct (type_le type (m_threshold (self w))).
    + eexists. by apply written_appended.
    + exists []. by apply appended_refl.
  - destruct (last (m_stack (self w))); [|done]. intros ->%Ret_world.
    exists []. by apply appended_refl.
  - intros ->%Ret_world. destruct (str_empty input).
    + exists []. by apply appended_refl.
    + destruct (informed_appended p ("BEGIN - " +:+ input) w Hg) as (ls & Ha).
      exists (ls ++ []). apply (appended_trans _ _ _ _ _ _ Ha).
      apply with_stack_appended, Ha.
  - intros ->%Ret_world. destruct (last (m_stack (self w))) as [top|].
    + pose proof (with_stack_appended p (removelast (m_stack (self w))) w Hg)
        as Ha.
      destruct (informed_appended p ("END - " +:+ top) _ (proj1 Ha)) as (ls & Hb).
      exists ([] ++ ls). apply (appended_trans _ _ _ _ _ _ Ha Hb).
    + exists []. by apply appended_refl.
Qed.

(** X1: on an initialised logger whose stream is good on the file [p], every
    sequence of defined calls puts the very same lines, in the same order,
    on the console and at the end of [p]; the stream stays good on [p] and
    no other file changes. *)
Theorem calls_mirror_console_and_file (p : string) (cs : list call) :
  forall w w',
    m_initialised (self w) = true -> stream_good w p ->
    calls cs w = Ret tt w' ->
    exists ls,
      cout w' = cout w ++ ls /\
      file_lines (disk w') p = file_lines (disk w) p ++ ls /\
      stream_good w' p /\
      (forall q, q <> p -> disk w' !! q = disk w !! q).
Proof.
  assert (H : forall w w', m_initialised (self w) = true -> stream_good w p ->
            calls cs w = Ret tt w' -> exists ls, appended p ls w w').
  { induction cs as [|c cs IH]; intros w w' Hi Hg.
    - intros ->%Ret_world. exists []. by apply appended_refl.
    - rewrite calls_cons. destruct (call_run c w) as [[] w1|] eqn:Hc; [|done].
      intros Hcs. destruct (call_run_appended p c w w1 Hi Hg Hc) as (ls1 & Ha).
      destruct Ha as (Hg1 & Ha). assert (Hi1 : m_initialised (self w1) = true)
        by (destruct Ha as (_ & _ & _ & ->); exact Hi).
      destruct (IH w1 w' Hi1 Hg1 Hcs) as (ls2 & Hb).
      exists (ls1 ++ ls2). by apply (appended_trans p ls1 ls2 w w1 w'). }
  intros w w' Hi Hg Hcs. destruct (H w w' Hi Hg Hcs) as (ls & Hg' & Hc & Hf & Ho & _).
  by exists ls.
Qed.

(** ** Nothing written is lost *)

#[local] Instance extends_refl : Reflexive extends.
Proof. intros w. split; [done|]. by intros q. Qed.

#[local] Instance extends_trans : Transitive extends.
Proof.
  intros w1 w2 w3 [Hc1 Hf1] [Hc2 Hf2]. split; [by etrans|].
  intros q. etrans; [apply Hf1|apply Hf2].
Qed.

Lemma file_lines_insert d p q ls :
  file_lines (<[p := ls]> d) q = if decide (p = q) then ls else file_lines d q.
Proof. unfold file_lines. rewrite lookup_insert. by case_decide. Qed.

Lemma ofstream_line_extends line f d q :
  file_lines d q `prefix_of` file_lines (ofstream_line line f d).2 q.
Proof.
  unfold ofstream_line. destruct (fs_fail f); [done|].
  destruct (fs_file f) as [p|]; [|done]. cbn. rewrite file_lines_insert.
  case_decide as E; [|done]. subst q. by apply prefix_app_r.
Qed.

Lemma ofstream_open_lines p f d q :
  file_lines (ofstream_open p f d).2 q = file_lines d q.
Proof.
  unfold ofstream_open. destruct (fs_file f); [done|].
  destruct (can_open p); [|done]. cbn. rewrite file_lines_insert.
  case_decide; by subst.
Qed.

Lemma write_world_extends x w : extends w (write_world x w).
Proof.
  split; [by apply prefix_app_r|]. intros q. apply ofstream_line_extends.
Qed.

Lemma written_extends ls : forall w, extends w (written ls w).
Proof.
  induction ls as [|x ls IH]; intros w; [done|]. cbn.
  etrans; [apply write_world_extends|apply IH].
Qed.

Lemma informed_extends message w : extends w (informed message w).
Proof.
  unfold informed. destruct (type_le INFO (m_threshold (self w))); [|done].
  apply written_extends.
Qed.

Lemma with_stack_extends v w : extends w (with_stack v w).
Proof. unfold with_stack. split; [done|]. by intros q. Qed.

Lemma call_run_extends c w w' : call_run c w = Ret tt w' -> extends w w'.
Proof.
  rewrite call_run_eq. destruct c.
  - intros ->%Ret_world. destruct (m_initialised (self w)); [done|].
    etrans; [|apply informed_extends]. split; [done|]. intros q.
    unfold opened. cbn. by rewrite ofstream_open_lines.
  - intros ->%Ret_world. apply write_world_extends.
  - intros ->%Ret_world. destruct (type_le type (m_threshold (self w))); [|done].
    apply written_extends.
  - destruct (last (m_stack (self w))); [|done]. by intros ->%Ret_world.
  - intros ->%Ret_world. destruct (str_empty input); [done|].
    unfold pushed. cbv zeta.
    etrans; [apply informed_extends|apply with_stack_extends].
  - intros ->%Ret_world. destruct (last (m_stack (self w))); [|done].
    unfold popped. etrans; [apply with_stack_extends|apply informed_extends].
Qed.

(** X2: whatever the state of the logger, a sequence of defined calls only
    adds at the end: the console before is a prefix of the console after,
    and so is every file on the disk -- nothing is truncated, overwritten
    or removed. *)
Theorem calls_append_only (cs : list call) :
  forall w w',
    calls cs w = Ret tt w' ->
    cout w `prefix_of` cout w' /\
    forall q, file_lines (disk w) q `prefix_of` file_lines (disk w') q.
Proof.
  induction cs as [|c cs IH]; intros w w'.
  - intros ->%Ret_world. apply extends_refl.
  - rewrite calls_cons. destruct (call_run c w) as [[] w1|] eqn:Hc; [|done].
    intros Hcs. apply (extends_trans w w1 w').
    + by apply (call_run_extends c).
    + by apply IH.
Qed.

(** ** A stream without a file *)

Lemma write_world_no_file x w :
  no_file w ->
  no_file (write_world x w) /\ disk (write_world x w) = disk w /\
  m_initialised (self (write_world x w)) = m_initialised (self w).
Proof.
  unfold no_file, write_world, ofstream_line. intros H.
  destruct (fs_fail (m_stream (self w))); [done|]. by rewrite H.
Qed.

Lemma written_no_file ls : forall w,
  no_file w ->
  no_file (written ls w) /\ disk (written ls w) = disk w /\
  m_initialised (self (written ls w)) = m_initialised (self w).
Proof.
  induction ls as [|x ls IH]; intros w H; [done|]. cbn.
  destruct (write_world_no_file x w H) as (H1 & H2 & H3).
  destruct (IH _ H1) as (H4 & H5 & H6). split; [done|]. split; congruence.
Qed.

Lemma informed_no_file message w :
  no_file w ->
  no_file (informed message w) /\ disk (informed message w) = disk w /\
  m_initialised (self (informed message w)) = m_initialised (self w).
Proof.
  intros H. unfold informed. destruct (type_le INFO (m_threshold (self w))).
  - by apply written_no_file.
  - done.
Qed.

(** Without a file, a call which does not open one leaves the disk alone. *)
Lemma call_run_no_file c w w' :
  no_file w ->
  m_initialised (self w) = true \/ (forall p, c <> call_initialise p) ->
  call_run c w = Ret tt w' ->
  no_file w' /\ disk w' = disk w /\
  m_initialised (self w') = m_initialised (self w).
Proof.
  intros Hn Hc. rewrite call_run_eq. destruct c.
  - destruct Hc as [Hi|Hc]; [|by destruct (Hc fileName)].
    rewrite Hi. by intros ->%Ret_world.
  - intros ->%Ret_world. by apply write_world_no_file.
  - intros ->%Ret_world. destruct (type_le type (m_threshold (self w))); [|done].
    by apply written_no_file.
  - destruct (last (m_stack (self w))); [|done]. by intros ->%Ret_world.
  - intros ->%Ret_world. destruct (str_empty input); [done|].
    unfold pushed, with_stack, no_file. cbn.
    by apply (informed_no_file ("BEGIN - " +:+ input) w).
  - intros ->%Ret_world. destruct (last (m_stack (self w))); [|done].
    unfold popped.
    apply (informed_no_file ("END - " +:+ s)
             (with_stack (removelast (m_stack (self w))) w)).
    exact Hn.
Qed.

Lemma calls_no_file cs : forall w w',
  no_file w ->
  m_initialised (self w) = true \/
    Forall (fun c => forall p, c <> call_initialise p) cs ->
  calls cs w = Ret tt w' ->
  no_file w' /\ disk w' = disk w.
Proof.
  induction cs as [|c cs IH]; intros w w' Hn Hc.
  - by intros ->%Ret_world.
  - rewrite calls_cons. destruct (call_run c w) as [[] w1|] eqn:Hr; [|done].
    intros Hcs.
    assert (Hc1 : m_initialised (self w) = true \/
                  (forall p, c <> call_initialise p)).
    { destruct Hc as [Hi|Hc]; [by left|right]. by apply Forall_cons in Hc as [? _]. }
    destruct (call_run_no_file c w w1 Hn Hc1 Hr) as (Hn1 & Hd1 & Hi1).
    assert (Hc2 : m_initialised (self w1) = true \/
                  Forall (fun c => forall p, c <> call_initialise p) cs).
    { destruct Hc as [Hi|Hc]; [left; congruence|right].
      by apply Forall_cons in Hc as [_ ?]. }
    destruct (IH w1 w' Hn1 Hc2 Hcs) as (Hn2 & Hd2). split; congruence.
Qed.

(** X3: before [initialise] is called, what the program logs reaches the
    console only: [write] puts its message on the console whatever the
    threshold, and no sequence of calls without [initialise] changes the
    disk. *)
Theorem uninitialised_logs_to_console_only :
  (forall message w, reachable w -> m_initialised (self w) = false ->
     exists w', write message w = Ret tt w' /\
                cout w' = cout w ++ [message] /\ disk w' = disk w) /\
  (forall cs w w', reachable w -> m_initialised (self w) = false ->
     Forall (fun c => forall p, c <> call_initialise p) cs ->
     calls cs w = Ret tt w' -> disk w' = disk w).
Proof.
  split.
  - intros message w Hr Hi. exists (write_world message w).
    split; [apply write_eq|]. split; [done|].
    by apply write_world_no_file, reachable_closed.
  - intros cs w w' Hr Hi Hcs Hrun.
    apply (calls_no_file cs w w'); [by apply reachable_closed|by right|done].
Qed.

(** X4: when the environment refuses to open the file, the first
    [initialise] still returns true and marks the logger initialised; from
    then on no call -- a further [initialise] included -- ever changes the
    disk: all file output is lost without a sign. *)
Theorem failed_open_loses_file_output (p : string) (w : World) :
  reachable w -> m_initialised (self w) = false -> can_open p = false ->
  exists w1,
    initialise p w = Ret true w1 /\
    m_initialised (self w1) = true /\
    disk w1 = disk w /\
    forall cs w2, calls cs w1 = Ret tt w2 -> disk w2 = disk w.
Proof.
  intros Hr Hi Hp. exists (informed "Log initialised" (opened p w)).
  rewrite initialise_eq, Hi. split; [done|].
  assert (Ho : no_file (opened p w) /\ disk (opened p w) = disk w).
  { unfold no_file, opened, ofstream_open.
    by rewrite (reachable_closed _ Hr Hi), Hp. }
  destruct Ho as [Hn Hd].
  destruct (informed_no_file "Log initialised" _ Hn) as (Hn1 & Hd1 & Hi1).
  split; [by rewrite Hi1|]. split; [congruence|].
  intros cs w2 Hrun.
  destruct (calls_no_file cs _ w2 Hn1 (or_introl Hi1) Hrun) as [_ Hd2].
  congruence.
Qed.

(** ** The destructor *)

(** X5: the destructor leaves a logger that was never initialised as it is
    (no message, stream untouched); on a reachable initialised logger with a
    good stream it writes the shut down line to the console and to the file
    and then releases the file. *)
Theorem destroy_shutdown :
  (forall w, m_initialised (self w) = false -> destroy w = Ret tt w) /\
  (forall w p, reachable w -> m_initialised (self w) = true ->
     stream_good w p ->
     exists w',
       destroy w = Ret tt w' /\
       cout w' = cout w ++ ["[ TIME ] Log shutting down"] /\
       file_lines (disk w') p =
         file_lines (disk w) p ++ ["[ TIME ] Log shutting down"] /\
       fs_file (m_stream (self w')) = None /\
       m_stack (self w') = m_stack (self w)).
Proof.
  split.
  - intros w Hi. by rewrite destroy_eq, Hi.
  - intros w p Hr Hi Hg. eexists. rewrite destroy_eq, Hi.
    split; [reflexivity|]. cbv zeta. cbn [cout disk self].
    assert (Hw : informed "Log shutting down" w =
                 written ["[ TIME ] Log shutting down"] w).
    { unfold informed. by rewrite (reachable_threshold _ Hr). }
    rewrite Hw.
    destruct (written_good ["[ TIME ] Log shutting down"] w p Hg)
      as ([Hf _] & Hl & _).
    split; [apply written_cout|]. split; [done|]. split.
    + cbn [m_stream set_stream]. unfold ofstream_close. by rewrite Hf.
    + cbn [m_stack set_stream]. apply written_self.
Qed.

(** ** The discipline of the stack *)

(** X6: the label vector is touched by [push] and [pop] alone: every other
    call leaves it as it is, [push] adds its label at the end unless the
    label is empty, and [pop] drops the last label. *)
Theorem stack_discipline (c : call) (w w' : World) :
  call_run c w = Ret tt w' ->
  m_stack (self w') =
    match c with
    | call_push input =>
        if str_empty input then m_stack (self w)
        else m_stack (self w) ++ [input]
    | call_pop => removelast (m_stack (self w))
    | _ => m_stack (self w)
    end.
Proof.
  rewrite call_run_eq. destruct c.
  - intros ->%Ret_world. destruct (m_initialised (self w)); [done|].
    apply initialised_self.
  - by intros ->%Ret_world.
  - intros ->%Ret_world. destruct (type_le type (m_threshold (self w))); [|done].
    apply (written_self (log_lines type message (m_stack (self w))) w).
  - destruct (last (m_stack (self w))); [|done]. by intros ->%Ret_world.
  - intros ->%Ret_world. destruct (str_empty input); [done|]. apply pushed_self.
  - intros ->%Ret_world. destruct (last (m_stack (self w))) as [top|] eqn:L.
    + apply popped_self.
    + apply last_None in L. by rewrite L.
Qed.

Lemma pop_each_S n w :
  pop_each (S n) w =
  match pop w with
  | Ret x w1 =>
      match pop_each n w1 with
      | Ret xs w2 => Ret (x :: xs) w2
      | Undefined => Undefined
      end
  | Undefined => Undefined
  end.
Proof. reflexivity. Qed.

(** Popping as many labels as there are on top of [st]. *)
Lemma pop_each_labels labels : forall st w,
  m_stack (self w) = st ++ labels ->
  exists w', pop_each (length labels) w = Ret (rev labels) w' /\
             m_stack (self w') = st.
Proof.
  induction labels as [|x ls IH] using rev_ind; intros st w Hst.
  - exists w. rewrite app_nil_r in Hst. done.
  - rewrite app_assoc in Hst. destruct (pop_top_of _ _ _ Hst) as (Hpop & Hst1).
    destruct (IH st _ Hst1) as (w' & Hrun & Hst').
    exists w'. rewrite length_app, Nat.add_comm. cbn [length Nat.add].
    rewrite pop_each_S, Hpop, Hrun, rev_app_distr. done.
Qed.

(** Popping the empty stack, any number of times. *)
Lemma pop_each_empty n : forall w,
  m_stack (self w) = [] -> pop_each n w = Ret (replicate n "") w.
Proof.
  induction n as [|n IH]; intros w Hst; [done|].
  rewrite pop_each_S, pop_eq, Hst. cbn [last]. by rewrite (IH w Hst).
Qed.

Lemma pop_each_add n : forall k w,
  pop_each (n + k) w =
  match pop_each n w with
  | Ret xs w1 =>
      match pop_each k w1 with
      | Ret ys w2 => Ret (xs ++ ys) w2
      | Undefined => Undefined
      end
  | Undefined => Undefined
  end.
Proof.
  induction n as [|n IH]; intros k w.
  - cbn. by destruct (pop_each k w).
  - cbn [Nat.add]. rewrite !pop_each_S. destruct (pop w) as [x w1|]; [|done].
    rewrite IH. destruct (pop_each n w1) as [xs w2|]; [|done].
    by destruct (pop_each k w2).
Qed.

(** X7: after pushes of labels, none of them empty, as many pops return the
    labels last pushed first and leave the stack as it was before the
    pushes; on a stack that was empty, any further pops return the empty
    string and leave it empty. *)
Theorem push_each_pop_each :
  (forall labels w,
     Forall (fun l => l <> "") labels ->
     exists w1 w2,
       push_each labels w = Ret tt w1 /\
       pop_each (length labels) w1 = Ret (rev labels) w2 /\
       m_stack (self w2) = m_stack (self w)) /\
  (forall labels k w,
     Forall (fun l => l <> "") labels -> m_stack (self w) = [] ->
     exists w1 w2,
       push_each labels w = Ret tt w1 /\
       pop_each (length labels + k) w1 =
         Ret (rev labels ++ replicate k "") w2 /\
       m_stack (self w2) = []).
Proof.
  split.
  - intros labels w Hne.
    destruct (push_each_nonempty labels w Hne) as (w1 & Hpush & Hst).
    destruct (pop_each_labels labels _ w1 Hst) as (w2 & Hpop & Hst2).
    by exists w1, w2.
  - intros labels k w Hne Hw.
    destruct (push_each_nonempty labels w Hne) as (w1 & Hpush & Hst).
    destruct (pop_each_labels labels _ w1 Hst) as (w2 & Hpop & Hst2).
    exists w1, w2. split; [done|]. rewrite Hw in Hst2.
    by rewrite pop_each_add, Hpop, (pop_each_empty k w2 Hst2).
Qed.


(** ** The level wrappers *)

(** X9: in every reachable world the four wrappers above DEBUG return true;
    [warn] and [info] write the one line of the message and no stack dump,
    however deep the stack; [fatal] and [error] write the line and the dump;
    none of them changes the stack. *)
Theorem wrappers_in_reachable_worlds (message : string) (w : World) :
  reachable w ->
  exists wf we ww wi,
    fatal message w = Ret true wf /\
    error message w = Ret true we /\
    warn message w = Ret true ww /\
    info message w = Ret true wi /\
    cout ww = cout w ++ ["[ TIME ] " +:+ message] /\
    cout wi = cout w ++ ["[ TIME ] " +:+ message] /\
    cout wf = cout w ++ ["[ TIME ] " +:+ message; "====== Stack Trace ======"]
                     ++ rev (m_stack (self w)) ++ ["========================="] /\
    cout we = cout wf /\
    m_stack (self wf) = m_stack (self w) /\
    m_stack (self we) = m_stack (self w) /\
    m_stack (self ww) = m_stack (self w) /\
    m_stack (self wi) = m_stack (self w).
Proof.
  intros Hr. unfold fatal, error, warn, info. rewrite !log_eq.
  rewrite (reachable_threshold _ Hr).
  eexists _, _, _, _. do 4 (split; [reflexivity|]).
  unfold log_lines. cbn [type_le ord Z.leb Z.compare].
  rewrite !written_cout.
  do 4 (split; [reflexivity|]).
  repeat split; apply written_self.
Qed.

End Logger.

(** ** The theorems at concrete worlds *)

Lemma log_threshold_witness :
  ord (m_threshold (self fresh)) < ord DEBUG /\
  log DEBUG "x" fresh = Ret false fresh.
Proof.
  assert (H : ord (m_threshold (self fresh)) < ord DEBUG) by reflexivity.
  split; [exact H|].
  exact (proj2 (proj2 (log_threshold DEBUG "x" fresh)) H).
Defined.

Lemma log_error_stack_dump_witness :
  ord ERROR <= ord ERROR /\
  ord ERROR <= ord (m_threshold (self fresh)) /\
  exists w',
    log ERROR "boom" fresh = Ret true w' /\
    cout w' = ["[ TIME ] boom"; "====== Stack Trace ======";
               "========================="].
Proof.
  assert (H1 : ord ERROR <= ord ERROR) by (vm_compute; discriminate).
  assert (H2 : ord ERROR <= ord (m_threshold (self fresh)))
    by (vm_compute; discriminate).
  split; [exact H1|]. split; [exact H2|].
  destruct (proj1 log_error_stack_dump ERROR "boom" fresh H1 H2)
    as (w' & Hlog & Hcout & _).
  exists w'. split; [exact Hlog|exact Hcout].
Defined.

(** The claim C4 as it was stated fails where one of the distinct labels is
    the empty string: after [push "a"] and [push ""], [peek] returns "a",
    the first label, since [push] has turned the second one down. *)
Lemma peek_after_rejected_push :
  NoDup ["a"; ""] /\
  (exists w', push_each every_path ["a"; ""] fresh = Ret tt w' /\
              peek w' = Ret "a" w') /\
  ~ (forall labels x w,
       NoDup labels -> last labels = Some x ->
       exists w', push_each every_path labels w = Ret tt w' /\
                  peek w' = Ret x w').
Proof.
  assert (Hd : NoDup ["a"; ""]).
  { apply NoDup_cons. split; [|apply NoDup_singleton].
    intros Hin%list_elem_of_singleton. discriminate Hin. }
  split; [exact Hd|]. split.
  - eexists. split; reflexivity.
  - intros H. destruct (H ["a"; ""] "" fresh Hd eq_refl) as (w' & Hrun & Hpeek).
    vm_compute in Hrun. injection Hrun as <-.
    vm_compute in Hpeek. discriminate Hpeek.
Qed.

Lemma peek_top_witness :
  Forall (fun l => l <> "") ["a"; "b"] /\
  exists w', push_each every_path ["a"; "b"] fresh = Ret tt w' /\
             peek w' = Ret "b" w'.
Proof.
  assert (H : Forall (fun l : string => l <> "") ["a"; "b"])
    by (repeat constructor; discriminate).
  split; [exact H|].
  destruct (peek_top every_path) as (_ & _ & _ & Hpush & _).
  exact (Hpush ["a"; "b"] "b" fresh H eq_refl).
Defined.

Lemma push_pop_roundtrip_witness :
  "f" <> "" /\
  exists w1 w2,
    push "f" fresh = Ret true w1 /\ pop w1 = Ret "f" w2 /\
    m_stack (self w2) = m_stack (self fresh).
Proof.
  assert (H : "f" <> "") by discriminate.
  split; [exact H|]. exact (push_pop_roundtrip "f" fresh H).
Defined.

Lemma push_contract_witness :
  reachable every_path fresh /\ "f" <> "" /\
  exists w',
    push "f" fresh = Ret true w' /\
    cout w' = ["[ TIME ] BEGIN - f"] /\
    m_stack (self w') = ["f"].
Proof.
  assert (Hr : reachable every_path fresh) by constructor.
  assert (H : "f" <> "") by discriminate.
  split; [exact Hr|]. split; [exact H|].
  exact (proj2 (proj2 (push_contract every_path)) "f" fresh Hr H).
Defined.

Lemma initialise_once_witness :
  reachable every_path fresh /\
  m_initialised (self fresh) = false /\
  every_path "app.log" = true /\
  exists w1,
    initialise every_path "app.log" fresh = Ret true w1 /\
    stream_good w1 "app.log" /\
    file_lines (disk w1) "app.log" = ["[ TIME ] Log initialised"] /\
    initialise every_path "other.log" w1 = Ret false w1.
Proof.
  assert (Hr : reachable every_path fresh) by constructor.
  split; [exact Hr|]. split; [reflexivity|]. split; [reflexivity|].
  destruct (initialise_once every_path) as (_ & Hfirst & _ & Hagain & _).
  destruct (Hfirst "app.log" fresh Hr eq_refl eq_refl) as (w1 & Hi & Hg & Hl).
  exists w1. split; [exact Hi|]. split; [exact Hg|]. split; [exact Hl|].
  exact (Hagain "app.log" "other.log" fresh w1 Hi).
Defined.

Lemma pop_contract_witness :
  m_stack (self fresh) = [] /\ pop fresh = Ret "" fresh.
Proof.
  split; [reflexivity|].
  exact (proj1 (pop_contract every_path) fresh eq_refl).
Defined.

Lemma stack_labels_nonempty_witness :
  reachable every_path (pushed "a" fresh) /\
  Forall (fun x => x <> "") (m_stack (self (pushed "a" fresh))).
Proof.
  assert (Hr : reachable every_path (pushed "a" fresh)).
  { apply (reachable_call every_path fresh (call_push "a")).
    - constructor.
    - reflexivity. }
  split; [exact Hr|].
  exact (proj1 (proj2 (stack_labels_nonempty every_path)) _ Hr).
Defined.

Lemma threshold_stays_info_witness :
  reachable every_path (pushed "a" fresh) /\
  debug "x" (pushed "a" fresh) = Ret false (pushed "a" fresh).
Proof.
  assert (Hr : reachable every_path (pushed "a" fresh)).
  { apply (reachable_call every_path fresh (call_push "a")).
    - constructor.
    - reflexivity. }
  split; [exact Hr|].
  destruct (threshold_stays_info every_path) as (_ & _ & _ & Hdebug & _).
  exact (Hdebug (pushed "a" fresh) "x" Hr).
Defined.

(** ** The further theorems at concrete worlds *)

Lemma started_reachable : reachable every_path (started_on every_path "app.log").
Proof.
  apply (reachable_call every_path fresh (call_initialise "app.log")).
  - constructor.
  - vm_compute. reflexivity.
Defined.

Lemma started_good : stream_good (started_on every_path "app.log") "app.log".
Proof. split; vm_compute; reflexivity. Defined.

Lemma calls_mirror_console_and_file_witness :
  m_initialised (self (started_on every_path "app.log")) = true /\
  stream_good (started_on every_path "app.log") "app.log" /\
  exists w',
    calls every_path [call_push "a"; call_log ERROR "boom"; call_pop]
      (started_on every_path "app.log") = Ret tt w' /\
    exists ls,
      cout w' = cout (started_on every_path "app.log") ++ ls /\
      file_lines (disk w') "app.log" =
        file_lines (disk (started_on every_path "app.log")) "app.log" ++ ls /\
      stream_good w' "app.log" /\
      (forall q, q <> "app.log" ->
         disk w' !! q = disk (started_on every_path "app.log") !! q).
Proof.
  assert (Hi : m_initialised (self (started_on every_path "app.log")) = true)
    by (vm_compute; reflexivity).
  split; [exact Hi|]. split; [exact started_good|].
  eexists. split; [vm_compute; reflexivity|].
  apply (calls_mirror_console_and_file every_path "app.log"
           [call_push "a"; call_log ERROR "boom"; call_pop]
           (started_on every_path "app.log") _ Hi started_good).
  vm_compute. reflexivity.
Defined.

Lemma calls_append_only_witness :
  exists w',
    calls every_path [call_write "x"; call_initialise "app.log"] fresh
      = Ret tt w' /\
    cout fresh `prefix_of` cout w' /\
    forall q, file_lines (disk fresh) q `prefix_of` file_lines (disk w') q.
Proof.
  eexists. split; [vm_compute; reflexivity|].
  apply (calls_append_only every_path
           [call_write "x"; call_initialise "app.log"] fresh).
  vm_compute. reflexivity.
Defined.

Lemma uninitialised_logs_to_console_only_witness :
  reachable every_path fresh /\ m_initialised (self fresh) = false /\
  exists w', write "x" fresh = Ret tt w' /\
             cout w' = cout fresh ++ ["x"] /\ disk w' = disk fresh.
Proof.
  assert (Hr : reachable every_path fresh) by constructor.
  split; [exact Hr|]. split; [reflexivity|].
  exact (proj1 (uninitialised_logs_to_console_only every_path)
           "x" fresh Hr eq_refl).
Defined.

Lemma failed_open_loses_file_output_witness :
  reachable (fun _ => false) fresh /\ m_initialised (self fresh) = false /\
  exists w1,
    initialise (fun _ => false) "app.log" fresh = Ret true w1 /\
    m_initialised (self w1) = true /\
    disk w1 = disk fresh /\
    forall cs w2, calls (fun _ => false) cs w1 = Ret tt w2 ->
                  disk w2 = disk fresh.
Proof.
  assert (Hr : reachable (fun _ => false) fresh) by constructor.
  split; [exact Hr|]. split; [reflexivity|].
  exact (failed_open_loses_file_output (fun _ => false) "app.log" fresh
           Hr eq_refl eq_refl).
Defined.

Lemma destroy_shutdown_witness :
  m_initialised (self (started_on every_path "app.log")) = true /\
  exists w',
    destroy (started_on every_path "app.log") = Ret tt w' /\
    cout w' = ["[ TIME ] Log initialised"; "[ TIME ] Log shutting down"] /\
    file_lines (disk w') "app.log" =
      ["[ TIME ] Log initialised"; "[ TIME ] Log shutting down"] /\
    fs_file (m_stream (self w')) = None.
Proof.
  assert (Hi : m_initialised (self (started_on every_path "app.log")) = true)
    by (vm_compute; reflexivity).
  split; [exact Hi|].
  destruct (proj2 (destroy_shutdown every_path)
              (started_on every_path "app.log") "app.log"
              started_reachable Hi started_good)
    as (w' & Hd & Hc & Hf & Hn & _).
  exists w'. split; [exact Hd|]. split; [exact Hc|]. split; [exact Hf|exact Hn].
Defined.

Lemma stack_discipline_witness :
  call_run every_path (call_push "a") fresh = Ret tt (pushed "a" fresh) /\
  m_stack (self (pushed "a" fresh)) = ["a"].
Proof.
  assert (H : call_run every_path (call_push "a") fresh
              = Ret tt (pushed "a" fresh)) by reflexivity.
  split; [exact H|].
  exact (stack_discipline every_path (call_push "a") fresh _ H).
Defined.

Lemma push_each_pop_each_witness :
  Forall (fun l => l <> "") ["a"; "b"] /\
  m_stack (self fresh) = [] /\
  exists w1 w2,
    push_each every_path ["a"; "b"] fresh = Ret tt w1 /\
    pop_each 3 w1 = Ret ["b"; "a"; ""] w2 /\
    m_stack (self w2) = [].
Proof.
  assert (H : Forall (fun l : string => l <> "") ["a"; "b"])
    by (repeat constructor; discriminate).
  split; [exact H|]. split; [reflexivity|].
  exact (proj2 (push_each_pop_each every_path) ["a"; "b"] 1%nat fresh H eq_refl).
Defined.


Lemma wrappers_in_reachable_worlds_witness :
  reachable every_path fresh /\
  exists ww, warn "x" fresh = Ret true ww /\ cout ww = ["[ TIME ] x"].
Proof.
  assert (Hr : reachable every_path fresh) by constructor.
  split; [exact Hr|].
  destruct (wrappers_in_reachable_worlds every_path "x" fresh Hr)
    as (wf & we & ww & wi & _ & _ & Hw & _ & Hc & _).
  exists ww. split; [exact Hw|exact Hc].
Defined.
